(** * Morse converter: playback scheduler and text/Morse codec

    Shallow embedding of [src/components/MorseConverter.tsx].

    - [Scheduler] embeds the body of [playMorseCode]: the cursor [time], the
      [forEach] loop over [outputText.split('')] and the calls
      [gainNode.gain.setValueAtTime(v, time)] it issues, together with
      [oscillator.stop(time)] and the delay handed to [setTimeout].
    - [Codec] models [textToMorse] and [morseToText], which the component
      imports from [../utils/morseUtils].
    - [Component] embeds the component's state, its handlers
      ([handleCopyToClipboard], [handleClear], [toggleMode],
      [startVoiceTyping] and the recognition callbacks), the conversion
      effect and the enabling of its buttons, for any two converters.

    Times are exact integers counted in milliseconds (the component itself
    converts to milliseconds for [setTimeout]); the rounding of IEEE doubles
    is outside this model. A string is the list of its characters; the loop
    only tells ['.'], ['-'] and [' '] from everything else, so the encoding
    of other characters plays no part. *)

From Stdlib Require Import ZArith List String Ascii Bool Lia.
Import ListNotations.

Open Scope Z_scope.

(* ================================================================== *)
(** ** Playback scheduler *)
(* ================================================================== *)

Module Scheduler.

(** One call [gainNode.gain.setValueAtTime(v, t)]: [toneOn] is [true] for the
    gain [0.5] and [false] for the gain [0]. *)
Record ToneEvent : Type := mkEvent { timestamp : Z; toneOn : bool }.

Definition on (t : Z) : ToneEvent := mkEvent t true.
Definition off (t : Z) : ToneEvent := mkEvent t false.

(** The mutable state of the loop: the cursor [time] and the automation calls
    issued so far, oldest first. *)
Record LoopState : Type := mkState { time : Z; emitted : list ToneEvent }.

(** [const unit = 0.1] seconds. *)
Definition unit_ms : Z := 100.

(** The callback of [outputText.split('').forEach((char) => ...)]. *)
Definition step (unit : Z) (st : LoopState) (char : ascii) : LoopState :=
  if Ascii.eqb char "." then
    let t0 := time st in
    let t1 := t0 + unit in
    mkState (t1 + unit) (emitted st ++ [on t0; off t1])
  else if Ascii.eqb char "-" then
    let t0 := time st in
    let t1 := t0 + unit * 3 in
    mkState (t1 + unit) (emitted st ++ [on t0; off t1])
  else if Ascii.eqb char " " then
    mkState (time st + unit * 3) (emitted st)
  else st.

(** The whole loop, started with the cursor at [start]. *)
Definition forEach (unit start : Z) (chars : list ascii) : LoopState :=
  fold_left (step unit) chars (mkState start []).

(** The Tone Event sequence of a morse string, and the cursor after it. *)
Definition schedule (unit start : Z) (morse : string) : list ToneEvent :=
  emitted (forEach unit start (list_ascii_of_string morse)).

Definition cursor (unit start : Z) (morse : string) : Z :=
  time (forEach unit start (list_ascii_of_string morse)).

(** The readings of [audioContext.currentTime] that one call of
    [playMorseCode] takes, in the order of the source: for the frequency
    (line 98), for the gain reset (line 99), for the start of the cursor
    (line 101) and for the delay of the timer (line 126). *)
Record Clock : Type := mkClock {
  atFrequency : Z;
  atReset : Z;
  atStart : Z;
  atTimer : Z
}.

(** A clock that does not advance during the call. *)
Definition steady (currentTime : Z) : Clock :=
  mkClock currentTime currentTime currentTime currentTime.

(** What [playMorseCode] hands to the audio graph and to the timer:
    the time of [frequency.setValueAtTime(600, currentTime)], the initial
    [gain.setValueAtTime(0, currentTime)], the calls of the loop, the argument
    of [oscillator.stop] and the [setTimeout] delay
    [(time - currentTime) * 1000], here already in milliseconds. *)
Record Playback : Type := mkPlayback {
  frequencySet : Z;
  gainReset : ToneEvent;
  tones : list ToneEvent;
  stopAt : Z;
  timeoutDelay : Z
}.

Definition playMorseCode (clock : Clock) (outputText : string) : Playback :=
  let st := forEach unit_ms (atStart clock) (list_ascii_of_string outputText) in
  mkPlayback (atFrequency clock) (off (atReset clock)) (emitted st) (time st)
    (time st - atTimer clock).

(** The cursor's distance from its start for an arbitrary unit, as in
    [time - audioContext.currentTime]: the silence after the last symbol
    included. *)
Definition duration (unit start : Z) (morse : string) : Z :=
  cursor unit start morse - start.

(** The final emitted timestamp of a Tone Event sequence, [0] when nothing
    is emitted. *)
Definition finalTimestamp (evs : list ToneEvent) : Z :=
  match rev evs with
  | [] => 0
  | e :: _ => timestamp e
  end.

(** *** Recursive presentation of the loop *)

(** Events issued from cursor [t] on, in order. *)
Fixpoint events_from (unit t : Z) (chars : list ascii) : list ToneEvent :=
  match chars with
  | [] => []
  | char :: rest =>
      if Ascii.eqb char "." then
        on t :: off (t + unit) :: events_from unit (t + unit + unit) rest
      else if Ascii.eqb char "-" then
        on t :: off (t + unit * 3) :: events_from unit (t + unit * 3 + unit) rest
      else if Ascii.eqb char " " then
        events_from unit (t + unit * 3) rest
      else events_from unit t rest
  end.

(** Cursor reached from [t]. *)
Fixpoint time_from (unit t : Z) (chars : list ascii) : Z :=
  match chars with
  | [] => t
  | char :: rest =>
      if Ascii.eqb char "." then time_from unit (t + unit + unit) rest
      else if Ascii.eqb char "-" then time_from unit (t + unit * 3 + unit) rest
      else if Ascii.eqb char " " then time_from unit (t + unit * 3) rest
      else time_from unit t rest
  end.

(** *** Observations on a Tone Event sequence *)

Definition timestamps (evs : list ToneEvent) : list Z := map timestamp evs.

(** Timestamps never go back. *)
Fixpoint nondecreasing (ts : list Z) : Prop :=
  match ts with
  | [] => True
  | t :: rest =>
      match rest with
      | [] => True
      | t' :: _ => t <= t' /\ nondecreasing rest
      end
  end.

(** Silences between tones: for every tone-off followed by a tone-on, the
    time between them. *)
Fixpoint silences (evs : list ToneEvent) : list Z :=
  match evs with
  | [] => []
  | e :: rest =>
      match rest with
      | [] => []
      | e' :: _ =>
          if negb (toneOn e) && toneOn e'
          then (timestamp e' - timestamp e) :: silences rest
          else silences rest
      end
  end.

(** Adjacent events differ in [toneOn]. *)
Fixpoint alternates (evs : list ToneEvent) : Prop :=
  match evs with
  | [] => True
  | e :: rest =>
      match rest with
      | [] => True
      | e' :: _ => toneOn e <> toneOn e' /\ alternates rest
      end
  end.

(** Characters the loop reacts to. *)
Definition is_morse_char (char : ascii) : bool :=
  Ascii.eqb char "." || Ascii.eqb char "-" || Ascii.eqb char " ".

Definition is_tone_char (char : ascii) : bool :=
  Ascii.eqb char "." || Ascii.eqb char "-".

(** Length of the tone of a dot or dash, in units. *)
Definition tone_units (char : ascii) : Z :=
  if Ascii.eqb char "." then 1 else 3.

Definition strip (morse : string) : string :=
  string_of_list_ascii (filter is_morse_char (list_ascii_of_string morse)).

(** A run of [k] space characters. *)
Fixpoint spaces (k : nat) : string :=
  match k with
  | O => EmptyString
  | S k' => String " " (spaces k')
  end.

(** The same event, [d] later. *)
Definition delay (d : Z) (e : ToneEvent) : ToneEvent :=
  mkEvent (d + timestamp e) (toneOn e).

(** Sequences made of tone-on/tone-off pairs. *)
Inductive paired : list ToneEvent -> Prop :=
| paired_nil : paired []
| paired_tone t t' evs : paired evs -> paired (on t :: off t' :: evs).

Definition first_is_on (evs : list ToneEvent) : Prop :=
  match evs with
  | [] => True
  | e :: _ => toneOn e = true
  end.

Definition last_is_off (evs : list ToneEvent) : Prop :=
  match rev evs with
  | [] => True
  | e :: _ => toneOn e = false
  end.

(** *** Further observations on a schedule *)

(** How often a character occurs in a string. *)
Definition count (c : ascii) (chars : list ascii) : Z :=
  Z.of_nat (List.length (filter (Ascii.eqb c) chars)).

Definition occurrences (c : ascii) (morse : string) : Z :=
  count c (list_ascii_of_string morse).

(** Length of a morse string in units: two for a dot and its gap, four for a
    dash and its gap, three for a space. *)
Definition units (morse : string) : Z :=
  2 * occurrences "." morse + 4 * occurrences "-" morse
  + 3 * occurrences " " morse.

(** The dots and dashes of a string, in order. *)
Definition symbols (morse : string) : list ascii :=
  filter is_tone_char (list_ascii_of_string morse).

(** Lengths of the tones: for every tone-on followed by a tone-off, the time
    between them. *)
Fixpoint tone_lengths (evs : list ToneEvent) : list Z :=
  match evs with
  | [] => []
  | e :: rest =>
      match rest with
      | [] => []
      | e' :: _ =>
          if toneOn e && negb (toneOn e')
          then (timestamp e' - timestamp e) :: tone_lengths rest
          else tone_lengths rest
      end
  end.

(** Timestamps go strictly forward. *)
Fixpoint increasing (ts : list Z) : Prop :=
  match ts with
  | [] => True
  | t :: rest =>
      match rest with
      | [] => True
      | t' :: _ => t < t' /\ increasing rest
      end
  end.

End Scheduler.

(* ================================================================== *)
(** ** Codec *)
(* ================================================================== *)

Module Codec.

Inductive Symbol : Type := Dot | Dash.

(** A Code is a non-empty sequence of symbols: its first symbol and the
    rest. *)
Definition Code : Type := (Symbol * list Symbol)%type.

(** Modelled from the spec: the Alphabet Table of [utils/morseUtils] is not
    part of the sources; a table is any list of character/Code pairs, looked
    up first match first. *)
Definition Table : Type := list (ascii * Code).

Definition symbol_char (s : Symbol) : ascii :=
  match s with Dot => "."%char | Dash => "-"%char end.

Definition render (code : Code) : list ascii :=
  symbol_char (fst code) :: map symbol_char (snd code).

Fixpoint chars_eqb (a b : list ascii) : bool :=
  match a, b with
  | [], [] => true
  | x :: a', y :: b' => Ascii.eqb x y && chars_eqb a' b'
  | _, _ => false
  end.

Fixpoint lookup (table : Table) (c : ascii) : option Code :=
  match table with
  | [] => None
  | (k, code) :: rest => if Ascii.eqb k c then Some code else lookup rest c
  end.

Fixpoint reverse_lookup (table : Table) (token : list ascii) : option ascii :=
  match table with
  | [] => None
  | (k, code) :: rest =>
      if chars_eqb (render code) token then Some k
      else reverse_lookup rest token
  end.

(** Modelled from the spec: the construction-time injectivity check of the
    Alphabet Table (no two entries share a Code). *)
Fixpoint distinct (tokens : list (list ascii)) : bool :=
  match tokens with
  | [] => true
  | t :: rest => negb (existsb (chars_eqb t) rest) && distinct rest
  end.

Definition validate (table : Table) : bool :=
  distinct (map (fun entry => render (snd entry)) table).

(** Case policy of the table: characters are looked up in upper case. *)
Definition toUpperCase (c : ascii) : ascii :=
  let n := nat_of_ascii c in
  if (Nat.leb 97 n && Nat.leb n 122)%bool then ascii_of_nat (n - 32) else c.

Definition normalize (text : list ascii) : list ascii := map toUpperCase text.

Definition is_whitespace (c : ascii) : bool :=
  let n := nat_of_ascii c in
  Nat.eqb n 32 || (Nat.leb 9 n && Nat.leb n 13).

Definition supported (table : Table) (c : ascii) : bool :=
  match lookup table (toUpperCase c) with Some _ => true | None => false end.

(** The two gap tokens of the wire form. *)
Definition char_gap : list ascii := [" "%char].
Definition word_gap : list ascii := [" "%char; " "%char; " "%char].

Fixpoint join (sep : list ascii) (parts : list (list ascii)) : list ascii :=
  match parts with
  | [] => []
  | p :: rest =>
      match rest with
      | [] => p
      | _ :: _ => p ++ sep ++ join sep rest
      end
  end.

Fixpoint starts_with (prefix s : list ascii) : bool :=
  match prefix, s with
  | [], _ => true
  | _ :: _, [] => false
  | x :: prefix', y :: s' => Ascii.eqb x y && starts_with prefix' s'
  end.

(** Splitting on a separator string, left to right: [skip] counts the
    characters of a matched separator still to pass over, [cur] holds the
    current piece reversed. *)
Fixpoint split_go (sep : list ascii) (skip : nat) (cur s : list ascii)
  : list (list ascii) :=
  match s with
  | [] => [rev cur]
  | c :: rest =>
      match skip with
      | S k => split_go sep k cur rest
      | O =>
          if starts_with sep s
          then rev cur :: split_go sep (List.length sep - 1) [] rest
          else split_go sep 0 (c :: cur) rest
      end
  end.

Definition split (sep s : list ascii) : list (list ascii) :=
  split_go sep 0 [] s.

(** Words of a text: maximal runs of characters that are not whitespace. *)
Fixpoint words_go (cur s : list ascii) : list (list ascii) :=
  match s with
  | [] => match cur with [] => [] | _ :: _ => [rev cur] end
  | c :: rest =>
      if is_whitespace c
      then match cur with
           | [] => words_go [] rest
           | _ :: _ => rev cur :: words_go [] rest
           end
      else words_go (c :: cur) rest
  end.

Definition words (text : list ascii) : list (list ascii) := words_go [] text.

Definition option_list {A : Type} (o : option A) : list A :=
  match o with Some a => [a] | None => [] end.

Section WithTable.

Variable table : Table.

(** Modelled from the spec: [textToMorse] of [utils/morseUtils] (section 4.1,
    encode). Unsupported characters are dropped, the text is cut into words
    at whitespace, each character becomes its Code, Codes are joined by the
    character gap and words by the word gap. *)
Definition drop_unsupported (text : list ascii) : list ascii :=
  filter (fun c => is_whitespace c || supported table c) text.

Definition encode_word (word : list ascii) : list ascii :=
  join char_gap
    (flat_map (fun c => option_list (option_map render (lookup table (toUpperCase c))))
       word).

Definition encode (text : list ascii) : list ascii :=
  join word_gap (map encode_word (words (drop_unsupported text))).

(** Modelled from the spec: [morseToText] of [utils/morseUtils] (section 4.1,
    decode). The input is split on the word gap, each word on the character
    gap, each token is mapped back through the table; a token without a match
    is skipped. *)
Definition decode_tokens (tokens : list (list ascii)) : list ascii :=
  flat_map (fun token => option_list (reverse_lookup table token)) tokens.

Definition decode_word (word : list ascii) : list ascii :=
  decode_tokens (split char_gap word).

Definition decode (morse : list ascii) : list ascii :=
  join char_gap (map decode_word (split word_gap morse)).

Definition textToMorse (text : string) : string :=
  string_of_list_ascii (encode (list_ascii_of_string text)).

Definition morseToText (morse : string) : string :=
  string_of_list_ascii (decode (list_ascii_of_string morse)).

End WithTable.

(** Modelled from the spec: the failure signals of section 7 that the codec
    can meet, an unsupported character while encoding and a token without a
    match while decoding. *)
Inductive Failure : Type :=
| UnsupportedCharacter (c : ascii)
| UnknownCode (token : list ascii).

(** What a conversion comes to: a failure raised to the caller, or a
    value. *)
Inductive Outcome (A : Type) : Type :=
| Raised (failure : Failure)
| Returned (value : A).

Arguments Raised {A} failure.
Arguments Returned {A} value.

(** Modelled from the spec: the two policies that section 4.1 weighs for a
    failure signal, going on without the offending piece or giving up; the
    spec fixes the first one for both directions. *)
Inductive Policy : Type := tolerant | fail_fast.

Definition on_failure {A : Type} (p : Policy) (failure : Failure)
  : Outcome (list A) :=
  match p with
  | tolerant => Returned []
  | fail_fast => Raised failure
  end.

Definition bind {A B : Type} (o : Outcome A) (k : A -> Outcome B) : Outcome B :=
  match o with
  | Raised failure => Raised failure
  | Returned a => k a
  end.

(** The pieces that [f] gives for the elements of a list, in order, up to
    the first failure that is raised. *)
Fixpoint gather {A B : Type} (f : A -> Outcome (list B)) (l : list A)
  : Outcome (list B) :=
  match l with
  | [] => Returned []
  | a :: rest =>
      bind (f a) (fun pieces =>
      bind (gather f rest) (fun more => Returned (pieces ++ more)))
  end.

Section WithPolicy.

Variable policy : Policy.
Variable table : Table.

(** Modelled from the spec: encode with its failure signal. A character that
    is neither whitespace nor in the table signals [UnsupportedCharacter]. *)
Definition check_char (c : ascii) : Outcome (list ascii) :=
  if is_whitespace c then Returned [c]
  else match lookup table (toUpperCase c) with
       | Some _ => Returned [c]
       | None => on_failure policy (UnsupportedCharacter c)
       end.

Definition encode_with (text : list ascii) : Outcome (list ascii) :=
  bind (gather check_char text) (fun kept =>
  Returned (join word_gap (map (encode_word table) (words kept)))).

(** Modelled from the spec: decode with its failure signal. A token without
    a match in the table signals [UnknownCode]. *)
Definition decode_token (token : list ascii) : Outcome (list ascii) :=
  match reverse_lookup table token with
  | Some c => Returned [c]
  | None => on_failure policy (UnknownCode token)
  end.

Definition decode_word_with (word : list ascii) : Outcome (list (list ascii)) :=
  bind (gather decode_token (split char_gap word)) (fun chars =>
  Returned [chars]).

Definition decode_with (morse : list ascii) : Outcome (list ascii) :=
  bind (gather decode_word_with (split word_gap morse)) (fun decoded =>
  Returned (join char_gap decoded)).

Definition textToMorse_with (text : string) : Outcome string :=
  bind (encode_with (list_ascii_of_string text)) (fun morse =>
  Returned (string_of_list_ascii morse)).

Definition morseToText_with (morse : string) : Outcome string :=
  bind (decode_with (list_ascii_of_string morse)) (fun text =>
  Returned (string_of_list_ascii text)).

End WithPolicy.

(** A token of the wire form: a non-empty run of characters other than the
    space (dots and dashes in a well-formed input, anything else in a
    malformed one). *)
Definition is_token (token : list ascii) : bool :=
  match token with
  | [] => false
  | _ :: _ => forallb (fun c => negb (Ascii.eqb c " ")) token
  end.

(** Canonical wire form of words of tokens. *)
Definition wire (wordsOfTokens : list (list (list ascii))) : list ascii :=
  join word_gap (map (join char_gap) wordsOfTokens).

(** Words of tokens in canonical form: every word has a token and every
    token is a non-empty run without spaces. *)
Definition well_formed_wire (wordsOfTokens : list (list (list ascii))) : bool :=
  forallb
    (fun tokens =>
       match tokens with [] => false | _ :: _ => forallb is_token tokens end)
    wordsOfTokens.

(** A character of a word: supported by the table and not whitespace. *)
Definition is_char (table : Table) (c : ascii) : bool :=
  supported table c && negb (is_whitespace c).

(** A word of a text over the table: non-empty, made of such characters. *)
Definition is_word (table : Table) (word : list ascii) : bool :=
  match word with
  | [] => false
  | _ :: _ => forallb (is_char table) word
  end.

(** Texts of supported characters with single spaces between words:
    [inWord] tells whether the previous character belonged to a word, so a
    space is accepted only right after a word and the text cannot end on
    one. *)
Fixpoint spaced (table : Table) (inWord : bool) (text : list ascii) : bool :=
  match text with
  | [] => inWord
  | c :: rest =>
      if Ascii.eqb c " " then inWord && spaced table false rest
      else is_char table c && spaced table true rest
  end.

Definition single_spaced (table : Table) (text : list ascii) : bool :=
  match text with
  | [] => true
  | _ :: _ => spaced table false text
  end.

(** The rendered Codes of the characters of a word. *)
Definition tokens_of (table : Table) (word : list ascii) : list (list ascii) :=
  flat_map
    (fun c => option_list (option_map render (lookup table (toUpperCase c))))
    word.

(** Pieces in which the separator [sep] does not start, whatever follows
    them. *)
Inductive inert (sep : list ascii) : list ascii -> Prop :=
| inert_nil : inert sep []
| inert_cons c w :
    (forall rest, starts_with sep (c :: w ++ rest) = false) ->
    inert sep w -> inert sep (c :: w).

(** The International Morse codes of the letters and digits, an instance of
    the table used for concrete runs. *)
Definition entry (c : ascii) (h : Symbol) (t : list Symbol) : ascii * Code :=
  (c, (h, t)).

Definition international : Table :=
  let o := Dot in
  let m := Dash in
  [ entry "A" o [m];       entry "B" m [o; o; o];  entry "C" m [o; m; o];
    entry "D" m [o; o];    entry "E" o [];         entry "F" o [o; m; o];
    entry "G" m [m; o];    entry "H" o [o; o; o];  entry "I" o [o];
    entry "J" o [m; m; m]; entry "K" m [o; m];     entry "L" o [m; o; o];
    entry "M" m [m];       entry "N" m [o];        entry "O" m [m; m];
    entry "P" o [m; m; o]; entry "Q" m [m; o; m];  entry "R" o [m; o];
    entry "S" o [o; o];    entry "T" m [];         entry "U" o [o; m];
    entry "V" o [o; o; m]; entry "W" o [m; m];     entry "X" m [o; o; m];
    entry "Y" m [o; m; m]; entry "Z" m [m; o; o];
    entry "0" m [m; m; m; m]; entry "1" o [m; m; m; m];
    entry "2" o [o; m; m; m]; entry "3" o [o; o; m; m];
    entry "4" o [o; o; o; m]; entry "5" o [o; o; o; o];
    entry "6" m [o; o; o; o]; entry "7" m [m; o; o; o];
    entry "8" m [m; m; o; o]; entry "9" m [m; m; m; o] ].

End Codec.

(* ================================================================== *)
(** ** The component: state, handlers and the conversion effect *)
(* ================================================================== *)

Module Component.

(** [useState<'encode' | 'decode'>]. *)
Inductive Mode : Type := encode | decode.

(** Calls of [toast.error], [toast.success] and [toast.info]. *)
Inductive Toast : Type :=
| toast_error (message : string)
| toast_success (message : string)
| toast_info (message : string).

(** The five [useState] cells. *)
Record State : Type := mkComponent {
  inputText : string;
  outputText : string;
  morseMode : Mode;
  isPlaying : bool;
  isListening : bool
}.

(** The component together with what it acts on: the clipboard, the toasts
    shown so far (oldest first) and the audio contexts that were opened by
    [playMorseCode] and not yet closed by their timer. *)
Record World : Type := mkWorld {
  ui : State;
  clipboard : string;
  toasts : list Toast;
  openContexts : list Scheduler.Playback
}.

Definition initial : World :=
  mkWorld (mkComponent "" "" encode false false) "" [] [].

Definition setInputText (v : string) (st : State) : State :=
  mkComponent v (outputText st) (morseMode st) (isPlaying st) (isListening st).

Definition setOutputText (v : string) (st : State) : State :=
  mkComponent (inputText st) v (morseMode st) (isPlaying st) (isListening st).

Definition setMorseMode (m : Mode) (st : State) : State :=
  mkComponent (inputText st) (outputText st) m (isPlaying st) (isListening st).

Definition setIsPlaying (b : bool) (st : State) : State :=
  mkComponent (inputText st) (outputText st) (morseMode st) b (isListening st).

Definition setIsListening (b : bool) (st : State) : State :=
  mkComponent (inputText st) (outputText st) (morseMode st) (isPlaying st) b.

Definition with_ui (f : State -> State) (w : World) : World :=
  mkWorld (f (ui w)) (clipboard w) (toasts w) (openContexts w).

Definition toast (t : Toast) (w : World) : World :=
  mkWorld (ui w) (clipboard w) (toasts w ++ [t]) (openContexts w).

(** JavaScript truthiness of a string: only the empty string is falsy. *)
Definition truthy (s : string) : bool :=
  match s with EmptyString => false | String _ _ => true end.

Definition mode_eqb (a b : Mode) : bool :=
  match a, b with
  | encode, encode | decode, decode => true
  | _, _ => false
  end.

Definition flip (m : Mode) : Mode :=
  match m with encode => decode | decode => encode end.

(** [handleCopyToClipboard]. *)
Definition handleCopyToClipboard (w : World) : World :=
  toast (toast_success "Output copied to clipboard")
    (mkWorld (ui w) (outputText (ui w)) (toasts w) (openContexts w)).

(** [handleClear]. *)
Definition handleClear (w : World) : World :=
  toast (toast_info "Input cleared")
    (with_ui (fun st => setOutputText "" (setInputText "" st)) w).

(** [toggleMode]. *)
Definition toggleMode (w : World) : World :=
  handleClear (with_ui (fun st => setMorseMode (flip (morseMode st)) st) w).

(** The updater of [recognition.onresult]:
    [prev => prev + (prev ? ' ' : '') + transcript]. *)
Definition appendTranscript (transcript prev : string) : string :=
  (prev ++ (if truthy prev then " " else "") ++ transcript)%string.

(** What a click on the microphone button meets in [startVoiceTyping]: no
    [SpeechRecognition] in the window, a recognition that starts, or an
    exception on the way. *)
Inductive Capture : Type := capture_unsupported | capture_started | capture_failed.

Definition startVoiceTyping (c : Capture) (w : World) : World :=
  match c with
  | capture_unsupported =>
      toast (toast_error "Speech recognition is not supported in your browser") w
  | capture_started => w
  | capture_failed =>
      with_ui (setIsListening false)
        (toast (toast_error "Failed to start speech recognition") w)
  end.

(** The handlers installed on the recognition. *)
Definition onstart (w : World) : World :=
  toast (toast_info "Listening...") (with_ui (setIsListening true) w).

Definition onresult (transcript : string) (w : World) : World :=
  with_ui (fun st => setInputText (appendTranscript transcript (inputText st)) st) w.

Definition onerror (w : World) : World :=
  with_ui (setIsListening false) (toast (toast_error "Failed to recognize speech") w).

Definition onend (w : World) : World :=
  with_ui (setIsListening false) w.

(** [playMorseCode] seen from the component: [isPlaying] is set and an audio
    context is opened with the schedule of the current output. *)
Definition startPlayback (clock : Scheduler.Clock) (w : World) : World :=
  mkWorld (setIsPlaying true (ui w)) (clipboard w) (toasts w)
    (openContexts w ++ [Scheduler.playMorseCode clock (outputText (ui w))]).

(** The [setTimeout] callback of a playback: [setIsPlaying(false)] and
    [audioContext.close()]. *)
Definition playbackEnded (w : World) : option World :=
  match openContexts w with
  | [] => None
  | _ :: others =>
      Some (mkWorld (setIsPlaying false (ui w)) (clipboard w) (toasts w) others)
  end.

(** What can happen to the mounted component: the user acts on a control that
    is rendered and enabled, a playback timer fires, or the browser calls a
    recognition handler. *)
Inductive Event : Type :=
| Change (value : string)
| ClickClear
| ClickCopy
| ClickToggle
| ClickMic (c : Capture)
| ClickPlay (clock : Scheduler.Clock)
| TimerFired
| RecognitionStart
| RecognitionResult (transcript : string)
| RecognitionError
| RecognitionEnd.

(** The microphone and Play buttons are rendered in encode mode only;
    the microphone is [disabled={isListening}], Play is
    [disabled={isPlaying || !outputText}]. *)
Definition micEnabled (st : State) : bool :=
  mode_eqb (morseMode st) encode && negb (isListening st).

Definition playEnabled (st : State) : bool :=
  mode_eqb (morseMode st) encode
  && negb (isPlaying st || negb (truthy (outputText st))).

(** The handler of an event; [None] when the event cannot happen. *)
Definition handle (w : World) (ev : Event) : option World :=
  match ev with
  | Change value => Some (with_ui (setInputText value) w)
  | ClickClear => Some (handleClear w)
  | ClickCopy => Some (handleCopyToClipboard w)
  | ClickToggle => Some (toggleMode w)
  | ClickMic c => if micEnabled (ui w) then Some (startVoiceTyping c w) else None
  | ClickPlay clock =>
      if playEnabled (ui w) then Some (startPlayback clock w) else None
  | TimerFired => playbackEnded w
  | RecognitionStart => Some (onstart w)
  | RecognitionResult transcript => Some (onresult transcript w)
  | RecognitionError => Some (onerror w)
  | RecognitionEnd => Some (onend w)
  end.

(** The dependency array [[inputText, morseMode]] of the effect. *)
Definition depsChanged (old new : State) : bool :=
  negb (String.eqb (inputText old) (inputText new))
  || negb (mode_eqb (morseMode old) (morseMode new)).

Section WithConverters.

(** [textToMorse] and [morseToText] of [utils/morseUtils], taken as they
    come: any two functions on strings, [None] standing for a thrown
    exception. *)
Variables textToMorse morseToText : string -> option string.

Definition convert (m : Mode) (input : string) : option string :=
  match m with
  | encode => textToMorse input
  | decode => morseToText input
  end.

(** The body of [useEffect]. *)
Definition effect (w : World) : World :=
  match convert (morseMode (ui w)) (inputText (ui w)) with
  | Some out => with_ui (setOutputText out) w
  | None => toast (toast_error "Invalid input for conversion") w
  end.

(** After a handler the component renders again, and the effect runs when
    one of its dependencies has changed. *)
Definition rerender (old new : World) : World :=
  if depsChanged (ui old) (ui new) then effect new else new.

Definition step (w : World) (ev : Event) : option World :=
  option_map (rerender w) (handle w ev).

(** The component after its first render. *)
Definition mounted : World := effect initial.

Inductive reachable : World -> Prop :=
| reach_mounted : reachable mounted
| reach_step w ev w' : reachable w -> step w ev = Some w' -> reachable w'.

(** Running a list of events, as far as they can happen. *)
Fixpoint run (w : World) (evs : list Event) : option World :=
  match evs with
  | [] => Some w
  | ev :: rest =>
      match step w ev with
      | Some w' => run w' rest
      | None => None
      end
  end.

(** The output shows the conversion of the input whenever there is one. *)
Definition tracks (w : World) : Prop :=
  forall out,
    convert (morseMode (ui w)) (inputText (ui w)) = Some out ->
    outputText (ui w) = out.

End WithConverters.

(** The open audio contexts are the one of the running playback, if any. *)
Definition single (w : World) : Prop :=
  List.length (openContexts w) = if isPlaying (ui w) then 1%nat else 0%nat.

(** The browser delivers the transcripts [ts] one after the other. *)
Definition deliver (ts : list string) (w : World) : World :=
  fold_left (fun w' t => onresult t w') ts w.

(** Converters for concrete runs: the codec over the International Morse
    table, which never throws. *)
Definition sampleEncode (text : string) : option string :=
  Some (Codec.textToMorse Codec.international text).

Definition sampleDecode (morse : string) : option string :=
  Some (Codec.morseToText Codec.international morse).

(** The state those converters lead to after the events [evs]. *)
Definition afterEvents (evs : list Event) : World :=
  match run sampleEncode sampleDecode (mounted sampleEncode sampleDecode) evs with
  | Some w => w
  | None => initial
  end.

End Component.

(* ================================================================== *)
(** ** Properties of the scheduler *)
(* ================================================================== *)

Module SchedulerFacts.

Import Scheduler.

Lemma chars_append (a b : string) :
  list_ascii_of_string (a ++ b) = list_ascii_of_string a ++ list_ascii_of_string b.
Proof.
  induction a as [|c a IH]; simpl; [reflexivity | now rewrite IH].
Qed.

(** The loop computes [events_from] and [time_from]. *)
Lemma fold_step unit chars : forall st,
  fold_left (step unit) chars st =
  mkState (time_from unit (time st) chars)
          (emitted st ++ events_from unit (time st) chars).
Proof.
  induction chars as [|c chars IH]; intros [t evs]; simpl.
  - now rewrite app_nil_r.
  - rewrite IH. unfold step; simpl.
    destruct (Ascii.eqb c "."); [|destruct (Ascii.eqb c "-"); [|destruct (Ascii.eqb c " ")]];
      simpl; rewrite <- ?app_assoc; reflexivity.
Qed.

Lemma schedule_events unit start morse :
  schedule unit start morse = events_from unit start (list_ascii_of_string morse).
Proof. unfold schedule, forEach. now rewrite fold_step. Qed.

Lemma cursor_time unit start morse :
  cursor unit start morse = time_from unit start (list_ascii_of_string morse).
Proof. unfold cursor, forEach. now rewrite fold_step. Qed.

Ltac by_char c :=
  destruct (Ascii.eqb c ".");
  [|destruct (Ascii.eqb c "-"); [|destruct (Ascii.eqb c " ")]].

Lemma time_from_app unit a : forall t b,
  time_from unit t (a ++ b) = time_from unit (time_from unit t a) b.
Proof.
  induction a as [|c a IH]; intros t b; simpl; [reflexivity|].
  by_char c; apply IH.
Qed.

Lemma events_from_app unit a : forall t b,
  events_from unit t (a ++ b) =
  events_from unit t a ++ events_from unit (time_from unit t a) b.
Proof.
  induction a as [|c a IH]; intros t b; simpl; [reflexivity|].
  by_char c; simpl; now rewrite IH.
Qed.

Lemma time_from_spaces unit k : forall t,
  time_from unit t (list_ascii_of_string (spaces k)) = t + Z.of_nat k * (unit * 3).
Proof.
  induction k as [|k IH]; intros t.
  - simpl. lia.
  - change (time_from unit t (list_ascii_of_string (spaces (S k))))
      with (time_from unit (t + unit * 3) (list_ascii_of_string (spaces k))).
    rewrite IH, Nat2Z.inj_succ. ring.
Qed.

Lemma events_from_spaces unit k : forall t,
  events_from unit t (list_ascii_of_string (spaces k)) = [].
Proof.
  induction k as [|k IH]; intros t; [reflexivity|].
  change (events_from unit t (list_ascii_of_string (spaces (S k))))
    with (events_from unit (t + unit * 3) (list_ascii_of_string (spaces k))).
  apply IH.
Qed.

Lemma events_from_tone unit t c chars :
  is_tone_char c = true ->
  events_from unit t (c :: chars) =
  on t :: off (t + tone_units c * unit)
    :: events_from unit (t + tone_units c * unit + unit) chars.
Proof.
  unfold is_tone_char, tone_units. intros H. simpl.
  destruct (Ascii.eqb c ".").
  - now replace (1 * unit) with unit by lia.
  - simpl in H. rewrite H. now replace (3 * unit) with (unit * 3) by lia.
Qed.

Lemma time_from_tone unit t c chars :
  is_tone_char c = true ->
  time_from unit t (c :: chars) =
  time_from unit (t + tone_units c * unit + unit) chars.
Proof.
  unfold is_tone_char, tone_units. intros H. simpl.
  destruct (Ascii.eqb c ".").
  - now replace (1 * unit) with unit by lia.
  - simpl in H. rewrite H. now replace (3 * unit) with (unit * 3) by lia.
Qed.

Lemma events_from_filter unit chars : forall t,
  events_from unit t (filter is_morse_char chars) = events_from unit t chars.
Proof.
  induction chars as [|c chars IH]; intros t; [reflexivity|].
  cbn [filter]. unfold is_morse_char.
  destruct (Ascii.eqb c ".") eqn:Hdot; simpl; rewrite ?Hdot.
  - now rewrite IH.
  - destruct (Ascii.eqb c "-") eqn:Hdash; simpl; rewrite ?Hdot, ?Hdash.
    + now rewrite IH.
    + destruct (Ascii.eqb c " ") eqn:Hsp; simpl; rewrite ?Hdot, ?Hdash, ?Hsp;
        apply IH.
Qed.

Lemma time_from_filter unit chars : forall t,
  time_from unit t (filter is_morse_char chars) = time_from unit t chars.
Proof.
  induction chars as [|c chars IH]; intros t; [reflexivity|].
  cbn [filter]. unfold is_morse_char.
  destruct (Ascii.eqb c ".") eqn:Hdot; simpl; rewrite ?Hdot.
  - apply IH.
  - destruct (Ascii.eqb c "-") eqn:Hdash; simpl; rewrite ?Hdot, ?Hdash.
    + apply IH.
    + destruct (Ascii.eqb c " ") eqn:Hsp; simpl; rewrite ?Hdot, ?Hdash, ?Hsp;
        apply IH.
Qed.

Lemma time_from_shift unit d chars : forall t,
  time_from unit (d + t) chars = d + time_from unit t chars.
Proof.
  induction chars as [|c chars IH]; intros t; simpl; [reflexivity|].
  by_char c; rewrite <- IH; f_equal; lia.
Qed.

Lemma events_from_shift unit d chars : forall t,
  events_from unit (d + t) chars = map (delay d) (events_from unit t chars).
Proof.
  induction chars as [|c chars IH]; intros t; simpl; [reflexivity|].
  by_char c; cbn [map]; rewrite <- ?IH; unfold delay, on, off;
    cbn [timestamp toneOn].
  - replace (d + t + unit + unit) with (d + (t + unit + unit)) by lia.
    now replace (d + t + unit) with (d + (t + unit)) by lia.
  - replace (d + t + unit * 3 + unit) with (d + (t + unit * 3 + unit)) by lia.
    now replace (d + t + unit * 3) with (d + (t + unit * 3)) by lia.
  - now replace (d + t + unit * 3) with (d + (t + unit * 3)) by lia.
  - reflexivity.
Qed.

Lemma events_from_paired unit chars : forall t,
  paired (events_from unit t chars).
Proof.
  induction chars as [|c chars IH]; intros t; simpl; [constructor|].
  by_char c; try constructor; apply IH.
Qed.

Lemma paired_alternates evs : paired evs -> alternates evs.
Proof.
  induction 1 as [|t t' evs Hp IH]; [exact I|].
  cbn [alternates]. split; [simpl; discriminate|].
  destruct Hp; [exact I|]. split; [simpl; discriminate | exact IH].
Qed.

Lemma paired_last evs :
  paired evs -> evs = [] \/ exists front t, evs = front ++ [off t].
Proof.
  induction 1 as [|t t' evs Hp IH]; [now left|]. right.
  destruct IH as [-> | (front & t'' & ->)].
  - now exists [on t], t'.
  - now exists (on t :: off t' :: front), t''.
Qed.

Lemma nondecreasing_cons t ts :
  Forall (fun x => t <= x) ts -> nondecreasing ts -> nondecreasing (t :: ts).
Proof.
  intros Hall Hts. destruct ts as [|t' ts]; [exact I|].
  split; [now inversion Hall | exact Hts].
Qed.

Lemma events_from_sorted unit chars : 0 <= unit -> forall t,
  Forall (fun x => t <= x) (timestamps (events_from unit t chars)) /\
  nondecreasing (timestamps (events_from unit t chars)).
Proof.
  intros Hu. induction chars as [|c chars IH]; intros t; simpl.
  - split; [constructor | exact I].
  - assert (Hweak : forall t', t <= t' ->
        Forall (fun x => t' <= x) (timestamps (events_from unit t' chars)) ->
        Forall (fun x => t <= x) (timestamps (events_from unit t' chars))).
    { intros t' Ht. apply Forall_impl. intros; lia. }
    by_char c.
    + destruct (IH (t + unit + unit)) as [Hall Hs]. cbn [timestamps map timestamp on off].
      split.
      * constructor; [lia|]. constructor; [lia|]. apply Hweak; [lia | exact Hall].
      * apply nondecreasing_cons.
        -- constructor; [lia|]. apply Hweak; [lia | exact Hall].
        -- apply nondecreasing_cons; [|exact Hs].
           revert Hall. apply Forall_impl. intros; lia.
    + destruct (IH (t + unit * 3 + unit)) as [Hall Hs]. cbn [timestamps map timestamp on off].
      split.
      * constructor; [lia|]. constructor; [lia|]. apply Hweak; [lia | exact Hall].
      * apply nondecreasing_cons.
        -- constructor; [lia|]. apply Hweak; [lia | exact Hall].
        -- apply nondecreasing_cons; [|exact Hs].
           revert Hall. apply Forall_impl. intros; lia.
    + destruct (IH (t + unit * 3)) as [Hall Hs].
      split; [apply Hweak; [lia | exact Hall] | exact Hs].
    + apply IH.
Qed.

(** *** The claims *)

(** C1 (as stated, refuted): for [". ."] the silence between the two tones is
    [4] units, which is the sum of the pending inter-symbol gap and the
    [3]-unit gap of the space and not their maximum; across a three-space word
    gap it is [10] units, not [7]. *)
Lemma boundary_silence_not_max :
  silences (schedule unit_ms 0 ". .") = [4 * unit_ms] /\
  silences (schedule unit_ms 0 ". .") <> [Z.max unit_ms (3 * unit_ms)] /\
  silences (schedule unit_ms 0 ".   .") = [10 * unit_ms] /\
  silences (schedule unit_ms 0 ".   .") <> [Z.max unit_ms (7 * unit_ms)].
Proof. repeat split; try reflexivity; discriminate. Qed.

(** C1 (amended): when a dot or dash [a] is followed by [k] spaces and then a
    dot or dash [b], the tone of [b] starts [unit + k * 3 * unit] after the
    tone of [a] has ended: the gap of every space is added to the
    inter-symbol gap that follows [a]. *)
Theorem boundary_silence_adds unit start p a k b rest :
  is_tone_char a = true ->
  is_tone_char b = true ->
  let toff := cursor unit start (p ++ String a "") - unit in
  exists before after,
    schedule unit start (p ++ String a "") = before ++ [off toff] /\
    schedule unit start (p ++ String a (spaces k ++ String b rest)) =
      before ++ off toff :: on (toff + (unit + Z.of_nat k * (unit * 3))) :: after.
Proof.
  intros Ha Hb toff. subst toff.
  rewrite cursor_time, !schedule_events, !chars_append.
  cbn [list_ascii_of_string]. rewrite chars_append. cbn [list_ascii_of_string].
  rewrite time_from_app, !events_from_app.
  set (tp := time_from unit start (list_ascii_of_string p)).
  rewrite (time_from_tone _ _ _ _ Ha), !(events_from_tone _ _ _ _ Ha).
  cbn [time_from events_from].
  rewrite events_from_app, events_from_spaces, time_from_spaces.
  rewrite (events_from_tone _ _ _ _ Hb). cbn [app].
  exists (events_from unit start (list_ascii_of_string p) ++ [on tp]).
  replace (tp + tone_units a * unit + unit - unit)
    with (tp + tone_units a * unit) by lia.
  replace (tp + tone_units a * unit + (unit + Z.of_nat k * (unit * 3)))
    with (tp + tone_units a * unit + unit + Z.of_nat k * (unit * 3)) by lia.
  eexists. rewrite <- !app_assoc. cbn [app]. split; reflexivity.
Qed.

Lemma boundary_silence_adds_witness :
  is_tone_char "." = true /\ is_tone_char "-" = true /\
  exists before after,
    schedule 100 0 "-" = before ++ [off 300] /\
    schedule 100 0 "-   ." = before ++ off 300 :: on 1300 :: after.
Proof.
  split; [reflexivity|]. split; [reflexivity|].
  exact (boundary_silence_adds 100 0 "" "-" 3 "." "" eq_refl eq_refl).
Defined.

(** C3: for every unit [u], ["."] produces exactly the two events
    [(0, on)] and [(u, off)] with total duration [u], and ["-"] exactly
    [(0, on)] and [(3u, off)] with total duration [3u], the total duration
    being the final emitted timestamp; from another start time the same
    events come that much later. *)
Theorem single_symbol_schedule unit start :
  schedule unit 0 "." = [on 0; off unit] /\
  finalTimestamp (schedule unit 0 ".") = unit /\
  schedule unit 0 "-" = [on 0; off (3 * unit)] /\
  finalTimestamp (schedule unit 0 "-") = 3 * unit /\
  schedule unit start "." = [on start; off (start + unit)] /\
  schedule unit start "-" = [on start; off (start + 3 * unit)].
Proof.
  rewrite !schedule_events. unfold finalTimestamp.
  cbn -[Z.mul Z.add Z.sub].
  replace (0 + unit) with unit by lia.
  replace (0 + unit * 3) with (3 * unit) by lia.
  replace (start + unit * 3) with (start + 3 * unit) by lia.
  repeat split; reflexivity.
Qed.

(** C4: for every morse string and every unit [u > 0], the timestamps of the
    Tone Event sequence are non-decreasing from the first event to the
    last. *)
Theorem timestamps_nondecreasing unit start morse :
  0 < unit ->
  nondecreasing (timestamps (schedule unit start morse)).
Proof.
  intros Hu. rewrite schedule_events.
  apply events_from_sorted. lia.
Qed.

Lemma timestamps_nondecreasing_witness :
  0 < unit_ms /\
  nondecreasing (timestamps (schedule unit_ms 0 "... --- ...   .-")).
Proof.
  split; [reflexivity|].
  apply (timestamps_nondecreasing unit_ms 0 "... --- ...   .-"). reflexivity.
Defined.

(** C5 (as stated, refuted): the cursor starts at the clock reading
    [audioContext.currentTime], not at [0], and two runs on the same morse
    string with the same unit differ when that reading differs. *)
Lemma schedule_depends_on_clock :
  cursor unit_ms 5 "" = 5 /\
  tones (playMorseCode (steady 5) ".") = [on 5; off 105] /\
  tones (playMorseCode (steady 0) ".") <> tones (playMorseCode (steady 5) ".").
Proof. repeat split; try reflexivity; discriminate. Qed.

(** C5 (amended): the cursor starts at the start time handed to the loop (the
    clock reading of the audio context); the Tone Event sequence is a function
    of the morse string, the unit and that start time alone, and it is the
    sequence computed from start [0] with every timestamp moved by the start
    time. *)
Theorem schedule_relative_to_start unit start morse :
  cursor unit start "" = start /\
  schedule unit start morse = map (delay start) (schedule unit 0 morse) /\
  cursor unit start morse = start + cursor unit 0 morse.
Proof.
  split; [reflexivity|].
  rewrite !schedule_events, !cursor_time.
  rewrite <- events_from_shift, <- time_from_shift.
  now replace (start + 0) with start by lia.
Qed.

(** C6: for every unit, the empty morse string yields an empty Tone Event
    sequence and a playback duration of zero. *)
Theorem empty_schedule unit start clock :
  schedule unit start "" = [] /\
  duration unit start "" = 0 /\
  tones (playMorseCode clock "") = [] /\
  timeoutDelay (playMorseCode (steady start) "") = 0 /\
  stopAt (playMorseCode clock "") = atStart clock /\
  timeoutDelay (playMorseCode clock "") = atStart clock - atTimer clock.
Proof.
  unfold duration, playMorseCode, schedule, cursor, forEach.
  cbn -[Z.sub]. repeat split; lia.
Qed.

(** C9: a character other than ['.'], ['-'] and [' '] leaves the loop state as
    it is (no Tone Event, no cursor advance), and the schedule and the cursor
    of a string are those of the string with such characters removed. *)
Theorem other_characters_ignored unit start morse :
  (forall st char, is_morse_char char = true \/ step unit st char = st) /\
  schedule unit start morse = schedule unit start (strip morse) /\
  cursor unit start morse = cursor unit start (strip morse).
Proof.
  split; [|split].
  - intros st char. unfold is_morse_char, step.
    by_char char; auto.
  - unfold strip. rewrite !schedule_events, list_ascii_of_string_of_list_ascii.
    now rewrite events_from_filter.
  - unfold strip. rewrite !cursor_time, list_ascii_of_string_of_list_ascii.
    now rewrite time_from_filter.
Qed.

(** C10: in every Tone Event sequence of the scheduler adjacent events differ
    in tone-on/tone-off, the first event (if any) is tone-on and the last
    event (if any) is tone-off. *)
Theorem events_alternate unit start morse :
  alternates (schedule unit start morse) /\
  first_is_on (schedule unit start morse) /\
  last_is_off (schedule unit start morse).
Proof.
  rewrite schedule_events.
  pose proof (events_from_paired unit (list_ascii_of_string morse) start) as Hp.
  split; [now apply paired_alternates|]. split.
  - destruct Hp; simpl; auto.
  - unfold last_is_off. destruct (paired_last _ Hp) as [-> | (front & t & ->)].
    + exact I.
    + rewrite rev_app_distr. reflexivity.
Qed.

End SchedulerFacts.

(* ================================================================== *)
(** ** Properties of the codec *)
(* ================================================================== *)

Module CodecFacts.

Import Codec.

(** *** Characters and tokens *)

Lemma chars_eqb_eq a : forall b, chars_eqb a b = true <-> a = b.
Proof.
  induction a as [|x a IH]; intros [|y b]; simpl; split; intros H;
    try reflexivity; try discriminate.
  - apply andb_true_iff in H as [Hxy Hab].
    apply Ascii.eqb_eq in Hxy. apply IH in Hab. now subst.
  - injection H as -> ->. rewrite Ascii.eqb_refl. now apply IH.
Qed.

Lemma symbol_char_inj a b : symbol_char a = symbol_char b -> a = b.
Proof. destruct a, b; simpl; intros H; try reflexivity; discriminate. Qed.

Lemma render_inj c1 c2 : render c1 = render c2 -> c1 = c2.
Proof.
  destruct c1 as [h1 t1], c2 as [h2 t2]. unfold render. simpl.
  intros H. injection H as Hh Ht. apply symbol_char_inj in Hh. subst h2.
  f_equal. revert t2 Ht.
  induction t1 as [|x t1 IH]; intros [|y t2] Ht; simpl in Ht;
    try reflexivity; try discriminate.
  injection Ht as Hx Ht. apply symbol_char_inj in Hx. subst y.
  f_equal. now apply IH.
Qed.

Lemma symbol_char_token s : negb (Ascii.eqb (symbol_char s) " ") = true.
Proof. now destruct s. Qed.

Lemma render_is_token code : is_token (render code) = true.
Proof.
  destruct code as [h t]. unfold render, is_token. cbn [fst snd forallb].
  rewrite symbol_char_token. simpl.
  induction t as [|x t IH]; simpl; [reflexivity|].
  now rewrite symbol_char_token.
Qed.

Lemma reverse_lookup_nil table : reverse_lookup table [] = None.
Proof.
  induction table as [|[k code] table IH]; simpl; [reflexivity | exact IH].
Qed.

(** *** The table *)

Lemma lookup_in_codes table c code :
  lookup table c = Some code ->
  forall token, token = render code ->
  existsb (chars_eqb token) (map (fun entry => render (snd entry)) table) = true.
Proof.
  induction table as [|[k code'] table IH];
    cbn [lookup map existsb snd]; [discriminate|].
  intros H token ->. destruct (Ascii.eqb k c).
  - injection H as ->. apply orb_true_iff. left. now apply chars_eqb_eq.
  - apply orb_true_iff. right. now apply IH.
Qed.

(** In a validated table the reverse lookup of a character's Code gives the
    character back. *)
Lemma reverse_lookup_lookup table c code :
  validate table = true ->
  lookup table c = Some code ->
  reverse_lookup table (render code) = Some c.
Proof.
  unfold validate.
  induction table as [|[k code'] table IH];
    cbn [lookup reverse_lookup map distinct snd]; [discriminate|].
  intros Hv H. apply andb_true_iff in Hv as [Hfresh Hv].
  destruct (Ascii.eqb k c) eqn:Hk.
  - injection H as ->. apply Ascii.eqb_eq in Hk. subst k.
    assert (E : chars_eqb (render code) (render code) = true)
      by now apply chars_eqb_eq.
    now rewrite E.
  - destruct (chars_eqb (render code') (render code)) eqn:E.
    + apply chars_eqb_eq in E.
      rewrite (lookup_in_codes table c code H (render code') E) in Hfresh.
      discriminate.
    + now apply IH.
Qed.

(** *** Joining and splitting *)

Lemma join_cons2 sep p q rest :
  join sep (p :: q :: rest) = p ++ sep ++ join sep (q :: rest).
Proof. reflexivity. Qed.

Lemma join_push sep c p rest :
  join sep ((c :: p) :: rest) = c :: join sep (p :: rest).
Proof. destruct rest; reflexivity. Qed.

Lemma starts_with_app sep : forall rest, starts_with sep (sep ++ rest) = true.
Proof.
  induction sep as [|c sep IH]; intros rest; simpl; [reflexivity|].
  now rewrite Ascii.eqb_refl, IH.
Qed.

Lemma split_go_skip sep cur passed : forall rest,
  split_go sep (List.length passed) cur (passed ++ rest) = split_go sep 0 cur rest.
Proof.
  induction passed as [|c passed IH]; intros rest; [reflexivity|].
  simpl. apply IH.
Qed.

Lemma split_go_sep sep cur rest :
  sep <> [] ->
  split_go sep 0 cur (sep ++ rest) = rev cur :: split_go sep 0 [] rest.
Proof.
  intros Hsep. destruct sep as [|c sep']; [contradiction|].
  change ((c :: sep') ++ rest) with (c :: sep' ++ rest).
  cbn [split_go].
  change (c :: sep' ++ rest) with ((c :: sep') ++ rest).
  rewrite starts_with_app. f_equal.
  replace (List.length (c :: sep') - 1)%nat with (List.length sep')
    by (simpl; lia).
  apply split_go_skip.
Qed.

Lemma split_go_inert sep w : inert sep w -> forall cur rest,
  split_go sep 0 cur (w ++ rest) = split_go sep 0 (rev w ++ cur) rest.
Proof.
  induction 1 as [|c w Hc Hw IH]; intros cur rest; [reflexivity|].
  change ((c :: w) ++ rest) with (c :: w ++ rest).
  cbn [split_go]. rewrite Hc, IH. cbn [rev]. now rewrite <- app_assoc.
Qed.

Lemma split_go_join sep parts : sep <> [] -> Forall (inert sep) parts ->
  forall p cur, inert sep p ->
  split_go sep 0 cur (join sep (p :: parts)) = (rev cur ++ p) :: parts.
Proof.
  intros Hsep. induction 1 as [|q parts Hq Hparts IH]; intros p cur Hp.
  - cbn [join]. rewrite <- (app_nil_r p) at 1.
    rewrite split_go_inert by exact Hp. cbn [split_go].
    now rewrite rev_app_distr, rev_involutive.
  - rewrite join_cons2, split_go_inert by exact Hp.
    rewrite split_go_sep by exact Hsep.
    rewrite IH by exact Hq.
    now rewrite rev_app_distr, rev_involutive.
Qed.

Lemma split_join sep parts :
  sep <> [] -> parts <> [] -> Forall (inert sep) parts ->
  split sep (join sep parts) = parts.
Proof.
  intros Hsep Hne Hall. destruct parts as [|p parts]; [contradiction|].
  inversion Hall; subst.
  unfold split. now rewrite split_go_join.
Qed.

Lemma inert_app sep a b : inert sep a -> inert sep b -> inert sep (a ++ b).
Proof.
  induction 1 as [|c w Hc Hw IH]; intros Hb; [exact Hb|].
  cbn [app]. constructor; [|now apply IH].
  intros rest. rewrite <- app_assoc. apply Hc.
Qed.

(** A run without spaces contains neither gap token. *)
Lemma spaceless_inert sep w :
  Forall (fun c => Ascii.eqb c " " = false) w ->
  inert (" "%char :: sep) w.
Proof.
  induction 1 as [|c w Hc Hw IH]; constructor; [|exact IH].
  intros rest. cbn [starts_with app]. rewrite Ascii.eqb_sym in Hc.
  now rewrite Hc.
Qed.

Lemma token_spaceless token :
  is_token token = true -> Forall (fun c => Ascii.eqb c " " = false) token.
Proof.
  unfold is_token. destruct token as [|c0 token0]; [discriminate|].
  intros H. rewrite forallb_forall in H.
  apply Forall_forall. intros c Hin. specialize (H c Hin).
  now apply negb_true_iff.
Qed.

Lemma token_inert sep token :
  is_token token = true -> inert (" "%char :: sep) token.
Proof. intros H. now apply spaceless_inert, token_spaceless. Qed.

(** A word in wire form does not contain the word gap. *)
Lemma word_inert tokens : Forall (fun t => is_token t = true) tokens ->
  forall token, is_token token = true ->
  inert word_gap (join char_gap (token :: tokens)).
Proof.
  induction 1 as [|q qs Hq Hqs IH]; intros token Htoken.
  - now apply token_inert.
  - rewrite join_cons2. apply inert_app; [now apply token_inert|].
    cbn [char_gap app]. constructor; [|now apply IH].
    intros rest. destruct q as [|c q']; [discriminate|].
    rewrite join_push. cbn [app word_gap starts_with].
    apply token_spaceless in Hq. inversion Hq as [|? ? Hc _]; subst.
    rewrite Ascii.eqb_sym in Hc. now rewrite Hc.
Qed.

Lemma forallb_Forall {A : Type} (f : A -> bool) l :
  forallb f l = true -> Forall (fun x => f x = true) l.
Proof. intros H. apply Forall_forall. now apply forallb_forall. Qed.

Lemma split_tokens tokens :
  tokens <> [] -> forallb is_token tokens = true ->
  split char_gap (join char_gap tokens) = tokens.
Proof.
  intros Hne Hall. apply split_join; [discriminate | exact Hne |].
  apply forallb_Forall in Hall. revert Hall. apply Forall_impl.
  intros t Ht. now apply token_inert.
Qed.

(** Decoding a canonical wire form: every token is looked up on its own. *)
Lemma decode_wire table wss :
  well_formed_wire wss = true ->
  decode table (wire wss) = join char_gap (map (decode_tokens table) wss).
Proof.
  intros Hwf. unfold decode, wire. destruct wss as [|ws wss].
  - cbn. now rewrite reverse_lookup_nil.
  - apply forallb_Forall in Hwf.
    assert (Hinert : Forall (inert word_gap) (map (join char_gap) (ws :: wss))).
    { apply Forall_map. revert Hwf. apply Forall_impl. intros tokens Ht.
      destruct tokens as [|token tokens]; [discriminate|].
      apply forallb_Forall in Ht. inversion Ht; subst.
      now apply word_inert. }
    rewrite split_join by (try discriminate; exact Hinert).
    rewrite map_map. apply f_equal.
    apply map_ext_Forall. revert Hwf. apply Forall_impl.
    intros tokens Ht. unfold decode_word.
    destruct tokens as [|token tokens]; [discriminate|].
    rewrite split_tokens; [reflexivity | discriminate | exact Ht].
Qed.

(** *** Words of a text *)

Lemma is_char_supported table c :
  is_char table c = true -> supported table c = true /\ is_whitespace c = false.
Proof.
  unfold is_char. intros H. apply andb_true_iff in H as [Hs Hw].
  split; [exact Hs | now apply negb_true_iff].
Qed.

Lemma is_word_chars table w :
  is_word table w = true ->
  w <> [] /\ Forall (fun c => is_char table c = true) w.
Proof.
  destruct w as [|c w]; [discriminate|]. unfold is_word. intros H.
  split; [discriminate | now apply forallb_Forall].
Qed.

Lemma words_go_word table w :
  Forall (fun c => is_char table c = true) w -> forall cur rest,
  words_go cur (w ++ rest) = words_go (rev w ++ cur) rest.
Proof.
  induction 1 as [|c w Hc Hw IH]; intros cur rest; [reflexivity|].
  apply is_char_supported in Hc as [_ Hc].
  cbn [app words_go rev]. rewrite Hc, IH. now rewrite <- app_assoc.
Qed.

Lemma words_go_join table ws :
  Forall (fun w => is_word table w = true) ws ->
  forall w, is_word table w = true ->
  words_go [] (join char_gap (w :: ws)) = w :: ws.
Proof.
  induction 1 as [|q qs Hq Hqs IH]; intros w Hw;
    destruct (is_word_chars _ _ Hw) as [Hne Hchars].
  - cbn [join]. rewrite <- (app_nil_r w) at 1.
    rewrite (words_go_word table) by exact Hchars.
    rewrite app_nil_r. cbn [words_go].
    destruct (rev w) as [|c r] eqn:E.
    + apply (f_equal (@rev ascii)) in E. rewrite rev_involutive in E.
      now subst w.
    + now rewrite <- E, rev_involutive.
  - rewrite join_cons2, (words_go_word table) by exact Hchars.
    rewrite app_nil_r. cbn [char_gap app words_go].
    change (is_whitespace " ") with true. cbv iota.
    rewrite IH by exact Hq.
    destruct (rev w) as [|c r] eqn:E.
    + apply (f_equal (@rev ascii)) in E. rewrite rev_involutive in E.
      now subst w.
    + now rewrite <- E, rev_involutive.
Qed.

Lemma words_join table ws :
  forallb (is_word table) ws = true -> words (join char_gap ws) = ws.
Proof.
  intros H. apply forallb_Forall in H. unfold words.
  destruct ws as [|w ws]; [reflexivity|].
  inversion H; subst. now apply (words_go_join table).
Qed.

(** A single-spaced text is its words joined by single spaces. *)
Lemma spaced_join table text :
  (spaced table false text = true ->
   exists w ws, is_word table w = true /\ forallb (is_word table) ws = true /\
                text = join char_gap (w :: ws)) /\
  (spaced table true text = true ->
   exists w ws, forallb (is_char table) w = true /\
                forallb (is_word table) ws = true /\
                text = join char_gap (w :: ws)).
Proof.
  induction text as [|c text [IHout IHin]]; cbn [spaced].
  - split; [discriminate|]. intros _. now exists [], [].
  - destruct (Ascii.eqb c " ") eqn:Hc.
    + apply Ascii.eqb_eq in Hc. subst c. cbn [andb].
      split; [discriminate|]. intros H.
      destruct (IHout H) as (w & ws & Hw & Hws & ->).
      exists [], (w :: ws). cbn [forallb]. rewrite Hw, Hws.
      now rewrite join_cons2.
    + assert (Hpush : is_char table c && spaced table true text = true ->
        exists w ws, is_word table (c :: w) = true /\
                     forallb (is_word table) ws = true /\
                     c :: text = join char_gap ((c :: w) :: ws)).
      { intros H. apply andb_true_iff in H as [Hchar H].
        destruct (IHin H) as (w & ws & Hw & Hws & ->).
        exists w, ws. split; [|split; [exact Hws | now rewrite join_push]].
        cbn [is_word forallb]. now rewrite Hchar, Hw. }
      split; intros H; destruct (Hpush H) as (w & ws & Hw & Hws & E);
        exists (c :: w), ws; auto.
Qed.

Lemma single_spaced_join table text :
  single_spaced table text = true ->
  exists ws, forallb (is_word table) ws = true /\ text = join char_gap ws.
Proof.
  destruct text as [|c text]; [now exists []|].
  unfold single_spaced. intros H.
  destruct (proj1 (spaced_join table (c :: text)) H) as (w & ws & Hw & Hws & E).
  exists (w :: ws). cbn [forallb]. now rewrite Hw, Hws.
Qed.

(** *** Encoding words *)

Lemma tokens_of_tokens table w : forallb is_token (tokens_of table w) = true.
Proof.
  unfold tokens_of. induction w as [|c w IH]; [reflexivity|].
  cbn [flat_map]. rewrite forallb_app, IH, andb_true_r.
  destruct (lookup table (toUpperCase c)) as [code|]; [|reflexivity].
  cbn [option_map option_list forallb]. now rewrite render_is_token.
Qed.

Lemma tokens_of_word table w :
  is_word table w = true -> tokens_of table w <> [].
Proof.
  intros H. destruct (is_word_chars _ _ H) as [Hne Hchars].
  destruct Hchars as [|c w Hc _]; [contradiction|].
  apply is_char_supported in Hc as [Hc _]. unfold supported in Hc.
  unfold tokens_of. cbn [flat_map].
  destruct (lookup table (toUpperCase c)); [discriminate | discriminate].
Qed.

Lemma decode_tokens_app table a b :
  decode_tokens table (a ++ b) = decode_tokens table a ++ decode_tokens table b.
Proof. unfold decode_tokens. apply flat_map_app. Qed.

Lemma decode_tokens_of table w :
  validate table = true ->
  Forall (fun c => is_char table c = true) w ->
  decode_tokens table (tokens_of table w) = normalize w.
Proof.
  intros Hv. induction 1 as [|c w Hc Hw IH]; [reflexivity|].
  apply is_char_supported in Hc as [Hc _]. unfold supported in Hc.
  unfold tokens_of in *. cbn [flat_map normalize map].
  rewrite decode_tokens_app, IH.
  destruct (lookup table (toUpperCase c)) as [code|] eqn:E; [|discriminate].
  cbn [option_map option_list decode_tokens flat_map].
  now rewrite (reverse_lookup_lookup table _ _ Hv E).
Qed.

Lemma normalize_join ws :
  normalize (join char_gap ws) = join char_gap (map normalize ws).
Proof.
  induction ws as [|w ws IH]; [reflexivity|].
  destruct ws as [|q qs]; [reflexivity|].
  cbn [map] in IH |- *. rewrite !join_cons2, <- IH.
  unfold normalize. now rewrite !map_app.
Qed.

Lemma encode_words table ws :
  forallb (is_word table) ws = true ->
  encode table (join char_gap ws) = wire (map (tokens_of table) ws).
Proof.
  intros Hws. unfold encode, wire.
  assert (Hkept : drop_unsupported table (join char_gap ws) = join char_gap ws).
  { unfold drop_unsupported. apply forallb_filter_id.
    apply forallb_Forall in Hws. apply forallb_forall. intros c Hin.
    induction Hws as [|w ws Hw Hws IH]; [contradiction|].
    destruct (is_word_chars _ _ Hw) as [_ Hchars].
    assert (Hword : In c w -> is_whitespace c || supported table c = true).
    { intros Hc. rewrite Forall_forall in Hchars.
      destruct (is_char_supported _ _ (Hchars c Hc)) as [Hs _].
      now rewrite Hs, orb_true_r. }
    destruct ws as [|q qs]; [now apply Hword|].
    rewrite join_cons2 in Hin. apply in_app_or in Hin as [Hin | Hin];
      [now apply Hword|].
    apply in_app_or in Hin as [Hin | Hin]; [|now apply IH].
    destruct Hin as [<- | []]. reflexivity. }
  rewrite Hkept, (words_join table) by exact Hws.
  now rewrite map_map.
Qed.

(** *** The claims *)

(** C2: for every text made only of characters the table supports, with
    single spaces between words, decoding the encoding of the text gives the
    text in the table's case (upper case); the table is any table that passes
    the injectivity check. *)
Theorem decode_encode_roundtrip table text :
  validate table = true ->
  single_spaced table (list_ascii_of_string text) = true ->
  morseToText table (textToMorse table text) =
  string_of_list_ascii (normalize (list_ascii_of_string text)).
Proof.
  intros Hv Htext. unfold morseToText, textToMorse.
  rewrite list_ascii_of_string_of_list_ascii. f_equal.
  destruct (single_spaced_join _ _ Htext) as (ws & Hws & ->).
  rewrite (encode_words table ws Hws), decode_wire.
  - rewrite normalize_join, map_map. f_equal.
    apply map_ext_Forall. apply forallb_Forall in Hws.
    revert Hws. apply Forall_impl. intros w Hw.
    apply decode_tokens_of; [exact Hv | now apply is_word_chars].
  - unfold well_formed_wire. apply forallb_forall. intros tokens Hin.
    apply in_map_iff in Hin as (w & <- & Hin).
    rewrite forallb_forall in Hws. specialize (Hws w Hin).
    pose proof (tokens_of_word table w Hws) as Hne.
    destruct (tokens_of table w) as [|tok toks] eqn:E; [contradiction|].
    rewrite <- E. apply tokens_of_tokens.
Qed.

Lemma decode_encode_roundtrip_witness :
  validate international = true /\
  single_spaced international (list_ascii_of_string "SOS") = true /\
  textToMorse international "SOS" = "... --- ..."%string /\
  morseToText international (textToMorse international "SOS") = "SOS"%string.
Proof.
  split; [reflexivity|]. split; [reflexivity|]. split; [reflexivity|].
  exact (decode_encode_roundtrip international "SOS" eq_refl eq_refl).
Defined.

(** *** Failure signals *)




(** With the other policy the same conversions do raise. *)
Example fail_fast_raises :
  textToMorse_with fail_fast international "so?s"
    = Raised (UnsupportedCharacter "?") /\
  morseToText_with fail_fast international "... ---- ..."
    = Raised (UnknownCode (list_ascii_of_string "----")).
Proof. split; reflexivity. Qed.


(** C8: in a morse input in wire form, a token [x] without a match in the
    table is skipped and decoding goes on: the words before and after are
    decoded, and so are the tokens before and after [x] in its own word. *)
Theorem decode_skips_unknown table before tokens1 x tokens2 after :
  well_formed_wire (before ++ (tokens1 ++ x :: tokens2) :: after) = true ->
  reverse_lookup table x = None ->
  morseToText table
    (string_of_list_ascii (wire (before ++ (tokens1 ++ x :: tokens2) :: after)))
  = string_of_list_ascii
      (join char_gap
         (map (decode_tokens table) before
          ++ (decode_tokens table tokens1 ++ decode_tokens table tokens2)
          :: map (decode_tokens table) after)).
Proof.
  intros Hwf Hx. unfold morseToText.
  rewrite list_ascii_of_string_of_list_ascii, decode_wire by exact Hwf.
  rewrite map_app. cbn [map]. rewrite decode_tokens_app.
  unfold decode_tokens at 3. cbn [flat_map]. rewrite Hx. reflexivity.
Qed.

Lemma decode_skips_unknown_witness :
  well_formed_wire
    [[list_ascii_of_string "..."; list_ascii_of_string "----";
      list_ascii_of_string "---"]; [list_ascii_of_string "..."]] = true /\
  reverse_lookup international (list_ascii_of_string "----") = None /\
  morseToText international "... ---- ---   ..." = "SO S"%string.
Proof.
  split; [reflexivity|]. split; [reflexivity|].
  exact (decode_skips_unknown international []
           [list_ascii_of_string "..."] (list_ascii_of_string "----")
           [list_ascii_of_string "---"] [[list_ascii_of_string "..."]]
           eq_refl eq_refl).
Defined.

End CodecFacts.

(* ================================================================== *)
(** ** Further properties of the scheduler *)
(* ================================================================== *)

Module SchedulerExtra.

Import Scheduler SchedulerFacts.

Lemma count_cons c char chars :
  count c (char :: chars) = (if Ascii.eqb c char then 1 else 0) + count c chars.
Proof.
  unfold count. cbn [filter]. destruct (Ascii.eqb c char); cbn [List.length]; lia.
Qed.

Lemma time_from_count unit chars : forall t,
  time_from unit t chars =
  t + unit * (2 * count "." chars + 4 * count "-" chars + 3 * count " " chars).
Proof.
  induction chars as [|c chars IH]; intros t.
  - cbn. lia.
  - rewrite !count_cons. cbn [time_from].
    rewrite (Ascii.eqb_sym "." c), (Ascii.eqb_sym "-" c), (Ascii.eqb_sym " " c).
    destruct (Ascii.eqb c ".") eqn:Hdot.
    + apply Ascii.eqb_eq in Hdot. subst c. cbn [Ascii.eqb Bool.eqb].
      rewrite IH. lia.
    + destruct (Ascii.eqb c "-") eqn:Hdash.
      * apply Ascii.eqb_eq in Hdash. subst c. cbn [Ascii.eqb Bool.eqb].
        rewrite IH. lia.
      * destruct (Ascii.eqb c " "); rewrite IH; lia.
Qed.

Lemma time_from_le unit chars : 0 <= unit -> forall t,
  t <= time_from unit t chars.
Proof.
  intros Hu t. rewrite time_from_count.
  assert (H : forall c, 0 <= count c chars) by (intros; unfold count; lia).
  pose proof (H "."%char). pose proof (H "-"%char). pose proof (H " "%char).
  nia.
Qed.

Lemma tone_lengths_off t evs : tone_lengths (off t :: evs) = tone_lengths evs.
Proof. destruct evs; reflexivity. Qed.

Lemma tone_lengths_tone t t' evs :
  tone_lengths (on t :: off t' :: evs) = (t' - t) :: tone_lengths evs.
Proof.
  change (tone_lengths (on t :: off t' :: evs))
    with ((t' - t) :: tone_lengths (off t' :: evs)).
  now rewrite tone_lengths_off.
Qed.

Lemma events_from_symbols unit chars : forall t,
  List.length (events_from unit t chars)
    = (2 * List.length (filter is_tone_char chars))%nat /\
  tone_lengths (events_from unit t chars)
    = map (fun c => tone_units c * unit) (filter is_tone_char chars).
Proof.
  induction chars as [|c chars IH]; intros t; [split; reflexivity|].
  cbn [events_from filter].
  destruct (Ascii.eqb c ".") eqn:Hdot.
  - destruct (IH (t + unit + unit)) as [Hlen Htones].
    assert (Hc : is_tone_char c = true) by (unfold is_tone_char; now rewrite Hdot).
    assert (Hu : tone_units c = 1) by (unfold tone_units; now rewrite Hdot).
    rewrite Hc. cbn [map List.length].
    rewrite tone_lengths_tone, Htones, Hlen, Hu.
    split; [lia | f_equal; lia].
  - destruct (Ascii.eqb c "-") eqn:Hdash.
    + destruct (IH (t + unit * 3 + unit)) as [Hlen Htones].
      assert (Hc : is_tone_char c = true)
        by (unfold is_tone_char; now rewrite Hdot, Hdash).
      assert (Hu : tone_units c = 3) by (unfold tone_units; now rewrite Hdot).
      rewrite Hc. cbn [map List.length].
      rewrite tone_lengths_tone, Htones, Hlen, Hu.
      split; [lia | f_equal; lia].
    + assert (Hc : is_tone_char c = false)
        by (unfold is_tone_char; now rewrite Hdot, Hdash).
      rewrite Hc. destruct (Ascii.eqb c " "); apply IH.
Qed.

Lemma increasing_cons t ts :
  Forall (fun x => t < x) ts -> increasing ts -> increasing (t :: ts).
Proof.
  intros Hall Hts. destruct ts as [|t' ts]; [exact I|].
  split; [now inversion Hall | exact Hts].
Qed.

Lemma events_from_increasing unit chars : 0 < unit -> forall t,
  Forall (fun x => t <= x) (timestamps (events_from unit t chars)) /\
  increasing (timestamps (events_from unit t chars)).
Proof.
  intros Hu. induction chars as [|c chars IH]; intros t; cbn [events_from].
  - split; [constructor | exact I].
  - assert (Hlater : forall t', t < t' ->
        Forall (fun x => t' <= x) (timestamps (events_from unit t' chars)) ->
        Forall (fun x => t < x) (timestamps (events_from unit t' chars))).
    { intros t' Ht. apply Forall_impl. intros; lia. }
    assert (Htone : forall d, 0 < d ->
        Forall (fun x => t + d + unit <= x)
          (timestamps (events_from unit (t + d + unit) chars)) ->
        increasing (timestamps (events_from unit (t + d + unit) chars)) ->
        Forall (fun x => t <= x)
          (timestamps (on t :: off (t + d)
                         :: events_from unit (t + d + unit) chars)) /\
        increasing
          (timestamps (on t :: off (t + d)
                         :: events_from unit (t + d + unit) chars))).
    { intros d Hd Hall Hs. cbn [timestamps map timestamp on off]. split.
      - constructor; [lia|]. constructor; [lia|].
        revert Hall. apply Forall_impl. intros; lia.
      - apply increasing_cons.
        + constructor; [lia|]. revert Hall. apply Forall_impl. intros; lia.
        + apply increasing_cons; [|exact Hs].
          revert Hall. apply Forall_impl. intros; lia. }
    by_char c.
    + destruct (IH (t + unit + unit)) as [Hall Hs]. now apply Htone.
    + destruct (IH (t + unit * 3 + unit)) as [Hall Hs]. apply Htone; [lia | |]; assumption.
    + destruct (IH (t + unit * 3)) as [Hall Hs]. split; [|exact Hs].
      revert Hall. apply Forall_impl. intros; lia.
    + apply IH.
Qed.

Lemma events_from_window unit chars : 0 <= unit -> forall t,
  Forall (fun e => t <= timestamp e /\ timestamp e + unit <= time_from unit t chars)
    (events_from unit t chars).
Proof.
  intros Hu. induction chars as [|c chars IH]; intros t;
    cbn [events_from time_from]; [constructor|].
  assert (Hweak : forall t', t <= t' ->
      Forall (fun e => t' <= timestamp e /\
                       timestamp e + unit <= time_from unit t' chars)
        (events_from unit t' chars) ->
      Forall (fun e => t <= timestamp e /\
                       timestamp e + unit <= time_from unit t' chars)
        (events_from unit t' chars)).
  { intros t' Ht. apply Forall_impl. intros e [H1 H2]. split; lia. }
  by_char c.
  - pose proof (time_from_le unit chars Hu (t + unit + unit)).
    constructor; [cbn; lia|]. constructor; [cbn; lia|].
    apply Hweak; [lia | apply IH].
  - pose proof (time_from_le unit chars Hu (t + unit * 3 + unit)).
    constructor; [cbn; lia|]. constructor; [cbn; lia|].
    apply Hweak; [lia | apply IH].
  - apply Hweak; [lia | apply IH].
  - apply IH.
Qed.

(** *** Properties *)

(** X1: the cursor ends two units after the start for every dot, four for
    every dash and three for every space of the string, whatever their order
    and whatever else the string contains; the oscillator is stopped that
    long after the clock reading the cursor started from, and the delay of
    the timer is that amount less the time the clock has advanced between
    that reading and the one taken for the timer. *)
Theorem playback_duration unit start clock outputText :
  duration unit start outputText = unit * units outputText /\
  stopAt (playMorseCode clock outputText)
    = atStart clock + unit_ms * units outputText /\
  timeoutDelay (playMorseCode clock outputText)
    = unit_ms * units outputText - (atTimer clock - atStart clock).
Proof.
  unfold duration, playMorseCode, units, occurrences. cbn [timeoutDelay stopAt].
  fold (cursor unit_ms (atStart clock) outputText).
  rewrite !cursor_time, !time_from_count. repeat split; lia.
Qed.

(** X2: the loop issues exactly two gain calls per dot or dash, and the
    lengths of the tones, read in order, are those of the string's dots and
    dashes: one unit for a dot, three for a dash. *)
Theorem tones_render_symbols unit start morse :
  List.length (schedule unit start morse)
    = (2 * List.length (symbols morse))%nat /\
  tone_lengths (schedule unit start morse)
    = map (fun c => tone_units c * unit) (symbols morse).
Proof. rewrite schedule_events. apply events_from_symbols. Qed.

(** X3: for a unit [u > 0] the timestamps of the gain calls strictly
    increase, so no two calls of a schedule share a timestamp. *)
Theorem timestamps_increasing unit start morse :
  0 < unit ->
  increasing (timestamps (schedule unit start morse)).
Proof.
  intros Hu. rewrite schedule_events. now apply events_from_increasing.
Qed.

Lemma timestamps_increasing_witness :
  0 < unit_ms /\
  increasing (timestamps (schedule unit_ms 7 "-. ?.-   ..")).
Proof.
  split; [reflexivity|].
  apply (timestamps_increasing unit_ms 7 "-. ?.-   .."). reflexivity.
Defined.

(** X4: every gain call of a playback is scheduled at or after the clock
    reading the cursor started from, and at least one unit before the time
    the oscillator is stopped at: the stop never cuts a tone. *)
Theorem tones_within_playback clock outputText :
  Forall
    (fun e => atStart clock <= timestamp e /\
              timestamp e + unit_ms <= stopAt (playMorseCode clock outputText))
    (tones (playMorseCode clock outputText)).
Proof.
  unfold playMorseCode. cbn [tones stopAt].
  fold (cursor unit_ms (atStart clock) outputText).
  fold (schedule unit_ms (atStart clock) outputText).
  rewrite cursor_time, schedule_events.
  apply events_from_window. unfold unit_ms. lia.
Qed.

(** X5: scheduling a concatenation is scheduling the first part and then the
    second part from the cursor the first part ends at. *)
Theorem schedule_append unit start a b :
  schedule unit start (a ++ b)
    = schedule unit start a ++ schedule unit (cursor unit start a) b /\
  cursor unit start (a ++ b) = cursor unit (cursor unit start a) b.
Proof.
  rewrite !schedule_events, !cursor_time, chars_append.
  now rewrite events_from_app, time_from_app.
Qed.

End SchedulerExtra.

(* ================================================================== *)
(** ** Properties of the component *)
(* ================================================================== *)

Module ComponentFacts.

Import Component.

Lemma string_app_assoc (a b c : string) :
  ((a ++ b) ++ c = a ++ (b ++ c))%string.
Proof. induction a as [|x a IH]; cbn; [reflexivity | now rewrite IH]. Qed.

Lemma mode_eqb_eq a b : mode_eqb a b = true <-> a = b.
Proof. destruct a, b; cbn; split; intros H; try reflexivity; discriminate. Qed.

Lemma deps_unchanged old new :
  depsChanged old new = false ->
  inputText old = inputText new /\ morseMode old = morseMode new.
Proof.
  unfold depsChanged. intros H. apply orb_false_iff in H as [Hi Hm].
  apply negb_false_iff in Hi, Hm.
  split; [now apply String.eqb_eq | now apply mode_eqb_eq].
Qed.

(** *** Voice typing *)

(** The text that the transcripts [ts] leave behind, starting from [prev]. *)
Lemma fold_appendTranscript ts : forall prev,
  Forall (fun t => truthy t = true) ts ->
  fold_left (fun p t => appendTranscript t p) ts prev
  = String.concat " " ((if truthy prev then [prev] else []) ++ ts).
Proof.
  induction ts as [|t ts IH]; intros prev Hts.
  - cbn [fold_left]. destruct prev; reflexivity.
  - inversion Hts as [|? ? Ht Hts']; subst. cbn [fold_left].
    rewrite IH by exact Hts'.
    assert (Hnew : truthy (appendTranscript t prev) = true).
    { unfold appendTranscript. destruct prev; [exact Ht | reflexivity]. }
    rewrite Hnew. unfold appendTranscript.
    destruct prev as [|c prev]; [reflexivity|].
    cbn [truthy app]. destruct ts as [|t' ts]; [reflexivity|].
    cbn [String.concat]. now rewrite !string_app_assoc.
Qed.

Section WithConverters.

Variables textToMorse morseToText : string -> option string.

Local Abbreviation effect := (effect textToMorse morseToText).
Local Abbreviation step := (step textToMorse morseToText).
Local Abbreviation reachable := (reachable textToMorse morseToText).
Local Abbreviation convert := (convert textToMorse morseToText).
Local Abbreviation tracks := (tracks textToMorse morseToText).

Lemma effect_tracks w : tracks (effect w).
Proof.
  unfold Component.tracks, Component.effect. intros out.
  destruct (convert (morseMode (ui w)) (inputText (ui w))) as [o|] eqn:E;
    cbn; rewrite E; [now intros [= ->] | discriminate].
Qed.

Lemma effect_playback w :
  openContexts (effect w) = openContexts w /\
  isPlaying (ui (effect w)) = isPlaying (ui w).
Proof.
  unfold Component.effect.
  destruct (convert (morseMode (ui w)) (inputText (ui w))); split; reflexivity.
Qed.

Lemma handle_tracks w ev w1 :
  textToMorse "" = Some ""%string ->
  morseToText "" = Some ""%string ->
  tracks w ->
  handle w ev = Some w1 ->
  depsChanged (ui w) (ui w1) = false ->
  tracks w1.
Proof.
  intros He Hd Hw Hev Hdeps. apply deps_unchanged in Hdeps as [Hin Hmode].
  assert (Hsame : outputText (ui w1) = outputText (ui w) -> tracks w1).
  { intros Hout out. rewrite <- Hin, <- Hmode, Hout. apply Hw. }
  assert (Hcleared : inputText (ui w1) = ""%string ->
                     outputText (ui w1) = ""%string -> tracks w1).
  { intros Hi Ho out. rewrite Hi, Ho.
    destruct (morseMode (ui w1)); cbn; rewrite ?He, ?Hd; now intros [= <-]. }
  destruct ev; cbn [handle] in Hev.
  - injection Hev as <-. now apply Hsame.
  - injection Hev as <-. now apply Hcleared.
  - injection Hev as <-. now apply Hsame.
  - injection Hev as <-. now apply Hcleared.
  - destruct (micEnabled (ui w)); [|discriminate]. injection Hev as <-.
    apply Hsame. now destruct c.
  - destruct (playEnabled (ui w)); [|discriminate]. injection Hev as <-.
    now apply Hsame.
  - unfold playbackEnded in Hev. destruct (openContexts w); [discriminate|].
    injection Hev as <-. now apply Hsame.
  - injection Hev as <-. now apply Hsame.
  - injection Hev as <-. now apply Hsame.
  - injection Hev as <-. now apply Hsame.
  - injection Hev as <-. now apply Hsame.
Qed.

Lemma reachable_tracks w :
  textToMorse "" = Some ""%string ->
  morseToText "" = Some ""%string ->
  reachable w -> tracks w.
Proof.
  intros He Hd. induction 1 as [|w ev w' Hw IH Hstep].
  - apply effect_tracks.
  - unfold Component.step in Hstep.
    destruct (handle w ev) as [w1|] eqn:Hev; [|discriminate].
    cbn [option_map] in Hstep. injection Hstep as <-.
    unfold rerender. destruct (depsChanged (ui w) (ui w1)) eqn:Hdeps.
    + apply effect_tracks.
    + now apply (handle_tracks w ev).
Qed.

Lemma handle_single w ev w1 : single w -> handle w ev = Some w1 -> single w1.
Proof.
  unfold single. intros Hw Hev. destruct ev; cbn [handle] in Hev.
  - injection Hev as <-. exact Hw.
  - injection Hev as <-. exact Hw.
  - injection Hev as <-. exact Hw.
  - injection Hev as <-. exact Hw.
  - destruct (micEnabled (ui w)); [|discriminate]. injection Hev as <-.
    now destruct c.
  - unfold playEnabled in Hev.
    destruct (mode_eqb (morseMode (ui w)) encode); [|discriminate].
    destruct (isPlaying (ui w)) eqn:Hp; [discriminate|]. cbn [orb andb] in Hev.
    destruct (negb (negb (truthy (outputText (ui w))))); [|discriminate].
    injection Hev as <-. cbn. rewrite length_app, Hw. reflexivity.
  - unfold playbackEnded in Hev.
    destruct (openContexts w) as [|p others] eqn:Hopen; [discriminate|].
    injection Hev as <-. cbn. cbn [List.length] in Hw.
    destruct (isPlaying (ui w)); [|discriminate]. now injection Hw.
  - injection Hev as <-. exact Hw.
  - injection Hev as <-. exact Hw.
  - injection Hev as <-. exact Hw.
  - injection Hev as <-. exact Hw.
Qed.

Lemma reachable_single w : reachable w -> single w.
Proof.
  induction 1 as [|w ev w' Hw IH Hstep].
  - unfold single, mounted.
    destruct (effect_playback initial) as [-> ->]. reflexivity.
  - unfold Component.step in Hstep.
    destruct (handle w ev) as [w1|] eqn:Hev; [|discriminate].
    cbn [option_map] in Hstep. injection Hstep as <-.
    pose proof (handle_single w ev w1 IH Hev) as H1.
    unfold rerender. destruct (depsChanged (ui w) (ui w1)); [|exact H1].
    unfold single. now destruct (effect_playback w1) as [-> ->].
Qed.

Lemma deps_same old new :
  inputText old = inputText new -> morseMode old = morseMode new ->
  depsChanged old new = false.
Proof.
  unfold depsChanged. intros -> ->. rewrite String.eqb_refl.
  now destruct (morseMode new).
Qed.

Lemma run_reachable evs : forall w w',
  reachable w -> run textToMorse morseToText w evs = Some w' -> reachable w'.
Proof.
  induction evs as [|ev evs IH]; intros w w' Hw Hrun; cbn [run] in Hrun.
  - now injection Hrun as <-.
  - destruct (step w ev) as [w1|] eqn:Hstep; [|discriminate].
    apply (IH w1); [|exact Hrun]. now apply (reach_step _ _ w ev).
Qed.

(** *** Properties *)

(** X6: in every state the mounted component can reach, the output shown is
    the conversion of the current input in the current mode, whenever that
    conversion does not throw; both converters have to map the empty string
    to the empty string. *)
Theorem output_tracks_input w out :
  textToMorse "" = Some ""%string ->
  morseToText "" = Some ""%string ->
  reachable w ->
  convert (morseMode (ui w)) (inputText (ui w)) = Some out ->
  outputText (ui w) = out.
Proof. intros He Hd Hw. now apply reachable_tracks. Qed.

(** X7: in every reachable state there is one open audio context while
    [isPlaying] is set and none otherwise: a playback cannot be started while
    another one runs, and every context that was opened is closed by its
    timer. *)
Theorem one_playback_at_a_time w :
  reachable w ->
  List.length (openContexts w) = if isPlaying (ui w) then 1%nat else 0%nat.
Proof. apply reachable_single. Qed.

(** X8: when Play is pressed in a reachable state whose input encodes to
    [morse], the audio context that is opened is the only one, it plays the
    schedule of [morse], and [morse] is not empty. *)
Theorem play_plays_encoding w clock w' morse :
  textToMorse "" = Some ""%string ->
  morseToText "" = Some ""%string ->
  reachable w ->
  step w (ClickPlay clock) = Some w' ->
  textToMorse (inputText (ui w)) = Some morse ->
  openContexts w' = [Scheduler.playMorseCode clock morse] /\
  isPlaying (ui w') = true /\
  morse <> ""%string.
Proof.
  intros He Hd Hw Hstep Hmorse.
  pose proof (reachable_tracks w He Hd Hw) as Htracks.
  pose proof (reachable_single w Hw) as Hsingle.
  unfold Component.step in Hstep. cbn [handle] in Hstep.
  destruct (playEnabled (ui w)) eqn:Hplay; [|discriminate].
  cbn [option_map] in Hstep. injection Hstep as <-.
  unfold rerender. rewrite deps_same by reflexivity.
  unfold playEnabled in Hplay.
  apply andb_true_iff in Hplay as [Hmode Hplay].
  apply mode_eqb_eq in Hmode. apply negb_true_iff in Hplay.
  apply orb_false_iff in Hplay as [Hidle Hout]. apply negb_false_iff in Hout.
  unfold Component.tracks in Htracks. rewrite Hmode in Htracks.
  specialize (Htracks morse Hmorse).
  unfold single in Hsingle. rewrite Hidle in Hsingle.
  apply length_zero_iff_nil in Hsingle.
  cbn. rewrite Hsingle, Htracks. repeat split.
  intros ->. rewrite Htracks in Hout. discriminate.
Qed.

(** X9: Copy puts on the clipboard the conversion of the current input,
    whenever that conversion does not throw, and leaves the component's
    state as it is. *)
Theorem copy_copies_conversion w out :
  textToMorse "" = Some ""%string ->
  morseToText "" = Some ""%string ->
  reachable w ->
  convert (morseMode (ui w)) (inputText (ui w)) = Some out ->
  option_map clipboard (step w ClickCopy) = Some out /\
  option_map ui (step w ClickCopy) = Some (ui w).
Proof.
  intros He Hd Hw Hout.
  pose proof (reachable_tracks w He Hd Hw out Hout) as Htracks.
  unfold Component.step. cbn [handle option_map].
  unfold rerender. rewrite deps_same by reflexivity.
  cbn. now rewrite Htracks.
Qed.

(** X10: Clear empties input and output and keeps the mode; the mode switch
    empties them and flips the mode; the conversion effect that follows does
    not fill the output again, the converters mapping the empty string to the
    empty string. *)
Theorem clear_and_toggle w :
  textToMorse "" = Some ""%string ->
  morseToText "" = Some ""%string ->
  (exists w', step w ClickClear = Some w' /\
     inputText (ui w') = ""%string /\ outputText (ui w') = ""%string /\
     morseMode (ui w') = morseMode (ui w)) /\
  (exists w', step w ClickToggle = Some w' /\
     inputText (ui w') = ""%string /\ outputText (ui w') = ""%string /\
     morseMode (ui w') = flip (morseMode (ui w))).
Proof.
  intros He Hd.
  assert (Heffect : forall w1,
      inputText (ui w1) = ""%string -> outputText (ui w1) = ""%string ->
      inputText (ui (effect w1)) = ""%string /\
      outputText (ui (effect w1)) = ""%string /\
      morseMode (ui (effect w1)) = morseMode (ui w1)).
  { intros w1 Hi Ho. unfold Component.effect. rewrite Hi.
    destruct (morseMode (ui w1)) eqn:Hm; cbn [Component.convert];
      rewrite ?He, ?Hd; cbn; rewrite ?Hi, ?Hm; auto. }
  split.
  - exists (rerender textToMorse morseToText w (handleClear w)).
    split; [reflexivity|]. unfold rerender.
    destruct (depsChanged (ui w) (ui (handleClear w))).
    + exact (Heffect (handleClear w) eq_refl eq_refl).
    + repeat split; reflexivity.
  - exists (rerender textToMorse morseToText w (toggleMode w)).
    split; [reflexivity|]. unfold rerender.
    destruct (depsChanged (ui w) (ui (toggleMode w))).
    + exact (Heffect (toggleMode w) eq_refl eq_refl).
    + repeat split; reflexivity.
Qed.

End WithConverters.

(** X11: the transcripts that voice typing delivers are appended to the
    input in order, separated by single spaces and without a leading space
    when the input was empty; the transcripts are not empty. *)
Theorem transcripts_accumulate ts w :
  Forall (fun t => truthy t = true) ts ->
  inputText (ui (deliver ts w))
  = String.concat " "
      ((if truthy (inputText (ui w)) then [inputText (ui w)] else []) ++ ts).
Proof.
  intros Hts. rewrite <- fold_appendTranscript by exact Hts.
  unfold deliver. revert w. clear Hts.
  induction ts as [|t ts IH]; intros w; [reflexivity|].
  cbn [fold_left]. now rewrite IH.
Qed.

(** *** Concrete runs *)

Lemma afterEvents_reachable evs w :
  run sampleEncode sampleDecode (mounted sampleEncode sampleDecode) evs = Some w ->
  reachable sampleEncode sampleDecode w.
Proof. apply run_reachable. constructor. Qed.

Lemma output_tracks_input_witness :
  sampleEncode "" = Some ""%string /\
  sampleDecode "" = Some ""%string /\
  reachable sampleEncode sampleDecode (afterEvents [Change "sos"]) /\
  outputText (ui (afterEvents [Change "sos"])) = "... --- ..."%string.
Proof.
  assert (Hw : reachable sampleEncode sampleDecode (afterEvents [Change "sos"]))
    by (apply (afterEvents_reachable [Change "sos"]); reflexivity).
  split; [reflexivity|]. split; [reflexivity|]. split; [exact Hw|].
  exact (output_tracks_input sampleEncode sampleDecode
           (afterEvents [Change "sos"]) "... --- ..." eq_refl eq_refl Hw eq_refl).
Defined.

Lemma one_playback_at_a_time_witness :
  reachable sampleEncode sampleDecode (afterEvents [Change "sos"; ClickPlay (Scheduler.steady 0)]) /\
  List.length (openContexts (afterEvents [Change "sos"; ClickPlay (Scheduler.steady 0)])) = 1%nat.
Proof.
  assert (Hw : reachable sampleEncode sampleDecode
                 (afterEvents [Change "sos"; ClickPlay (Scheduler.steady 0)]))
    by (apply (afterEvents_reachable [Change "sos"; ClickPlay (Scheduler.steady 0)]); reflexivity).
  split; [exact Hw|].
  exact (one_playback_at_a_time sampleEncode sampleDecode _ Hw).
Defined.

Lemma play_plays_encoding_witness :
  sampleEncode "" = Some ""%string /\
  sampleDecode "" = Some ""%string /\
  reachable sampleEncode sampleDecode (afterEvents [Change "sos"]) /\
  step sampleEncode sampleDecode (afterEvents [Change "sos"]) (ClickPlay (Scheduler.steady 0))
    = Some (afterEvents [Change "sos"; ClickPlay (Scheduler.steady 0)]) /\
  sampleEncode "sos" = Some "... --- ..."%string /\
  openContexts (afterEvents [Change "sos"; ClickPlay (Scheduler.steady 0)])
    = [Scheduler.playMorseCode (Scheduler.steady 0) "... --- ..."].
Proof.
  assert (Hw : reachable sampleEncode sampleDecode (afterEvents [Change "sos"]))
    by (apply (afterEvents_reachable [Change "sos"]); reflexivity).
  split; [reflexivity|]. split; [reflexivity|]. split; [exact Hw|].
  split; [reflexivity|]. split; [reflexivity|].
  exact (proj1 (play_plays_encoding sampleEncode sampleDecode
                  (afterEvents [Change "sos"]) (Scheduler.steady 0)
                  (afterEvents [Change "sos"; ClickPlay (Scheduler.steady 0)]) "... --- ..."
                  eq_refl eq_refl Hw eq_refl eq_refl)).
Defined.

Lemma copy_copies_conversion_witness :
  sampleEncode "" = Some ""%string /\
  sampleDecode "" = Some ""%string /\
  reachable sampleEncode sampleDecode (afterEvents [ClickToggle; Change "... ---"]) /\
  option_map clipboard
    (step sampleEncode sampleDecode
       (afterEvents [ClickToggle; Change "... ---"]) ClickCopy)
    = Some "SO"%string.
Proof.
  assert (Hw : reachable sampleEncode sampleDecode
                 (afterEvents [ClickToggle; Change "... ---"]))
    by (apply (afterEvents_reachable [ClickToggle; Change "... ---"]); reflexivity).
  split; [reflexivity|]. split; [reflexivity|]. split; [exact Hw|].
  exact (proj1 (copy_copies_conversion sampleEncode sampleDecode
                  (afterEvents [ClickToggle; Change "... ---"]) "SO"
                  eq_refl eq_refl Hw eq_refl)).
Defined.

Lemma clear_and_toggle_witness :
  sampleEncode "" = Some ""%string /\
  sampleDecode "" = Some ""%string /\
  exists w',
    step sampleEncode sampleDecode (afterEvents [Change "sos"]) ClickToggle
      = Some w' /\
    inputText (ui w') = ""%string /\ outputText (ui w') = ""%string /\
    morseMode (ui w') = decode.
Proof.
  split; [reflexivity|]. split; [reflexivity|].
  exact (proj2 (clear_and_toggle sampleEncode sampleDecode
                  (afterEvents [Change "sos"]) eq_refl eq_refl)).
Defined.

Lemma transcripts_accumulate_witness :
  Forall (fun t => truthy t = true) ["hello"; "world"]%string /\
  inputText (ui (deliver ["hello"; "world"]%string initial))
    = "hello world"%string.
Proof.
  assert (Hts : Forall (fun t => truthy t = true) ["hello"; "world"]%string)
    by (repeat constructor).
  split; [exact Hts|].
  exact (transcripts_accumulate ["hello"; "world"]%string initial Hts).
Defined.

End ComponentFacts.
